(** * kmp-tools: screenshot pipeline, vision analyzer and image processor

    A shallow embedding of the parts of

      - [src/screenshots/vision_analyzer.py]
      - [src/screenshots/screenshot_pipeline.py]
      - [src/ios-tools/screenshots/image_processor.py]

    that the specification makes promises about, and the theorems that
    settle those promises.

    Conventions.  A Python [str] is a list of Unicode code points, a
    [pathlib.Path] is the list of its components, a directory is a finite
    map from file names to contents, a Python [float] is the rational it
    denotes with every operation rounded to binary64.  What the program
    takes from its libraries (the font rasteriser, the Unicode tables, the
    hosted oracle) is a variable of the section that uses it. *)

From Stdlib Require Import ZArith QArith Qabs Qround Lqa Lia List String Ascii.
From stdpp Require Import base tactics option list list_numbers sorting gmap.

Local Open Scope Z_scope.

(** * Python values *)

Module Py.

(** A character is its code point; a [str] is a sequence of characters. *)
Definition char : Type := N.
Definition str : Type := list char.

(** ASCII string literals of the Python source. *)
Fixpoint lit (s : string) : str :=
  match s with
  | EmptyString => []
  | String a s' => N_of_ascii a :: lit s'
  end.

(** What a Python call does: it returns, or an exception leaves it. *)
Inductive outcome (A : Type) : Type :=
| Returned (a : A)
| Raised.
Arguments Returned {A} a.
Arguments Raised {A}.

(** ** Rich comparison

    [sorted] and [<] compare characters by code point, sequences
    lexicographically.  [Cmp] is the three-way comparison behind them. *)

Class Cmp (A : Type) := cmp : A → A → comparison.
Global Hint Mode Cmp ! : typeclass_instances.

Class CmpLaws (A : Type) `{Cmp A} := {
  cmp_eq (x y : A) : cmp x y = Eq ↔ x = y;
  cmp_opp (x y : A) : cmp y x = CompOpp (cmp x y);
  cmp_lt_trans (x y z : A) : cmp x y = Lt → cmp y z = Lt → cmp x z = Lt
}.
Global Hint Mode CmpLaws ! - : typeclass_instances.

Definition le `{Cmp A} (x y : A) : Prop := cmp x y ≠ Gt.

Global Instance le_dec `{Cmp A} (x y : A) : Decision (le x y).
Proof. unfold le. destruct (cmp x y); [left | left | right]; congruence. Defined.

Global Instance char_cmp : Cmp char := N.compare.

Fixpoint lex_cmp `{Cmp A} (l1 l2 : list A) : comparison :=
  match l1, l2 with
  | [], [] => Eq
  | [], _ :: _ => Lt
  | _ :: _, [] => Gt
  | x :: l1', y :: l2' =>
      match cmp x y with
      | Eq => lex_cmp l1' l2'
      | c => c
      end
  end.

Global Instance list_cmp `{Cmp A} : Cmp (list A) := lex_cmp.

(** ** [str] methods used by the program *)

(** [sep.join(parts)] *)
Fixpoint join (sep : str) (parts : list str) : str :=
  match parts with
  | [] => []
  | [p] => p
  | p :: rest => p ++ sep ++ join sep rest
  end.

(** [s.replace(old, new)] for a one-character [old]. *)
Definition replace_char (old : char) (new : str) (s : str) : str :=
  mbind (M := list) (λ c : char, if decide (c = old) then new else [c]) s.

(** [s.startswith(p)] *)
Fixpoint startswith (p s : str) : bool :=
  match p, s with
  | [], _ => true
  | _ :: _, [] => false
  | a :: p', b :: s' => if decide (a = b) then startswith p' s' else false
  end.

(** [s.rfind(c)]: the last index of [c], or [None] for Python's [-1]. *)
Fixpoint rfind (c : char) (s : str) : option nat :=
  match s with
  | [] => None
  | a :: s' =>
      match rfind c s' with
      | Some i => Some (S i)
      | None => if decide (a = c) then Some O else None
      end
  end.

(** Decimal digits of a natural number, most significant first. *)
Definition digit (d : N) : char := (48 + d)%N.

Fixpoint digits_fuel (fuel : nat) (n : N) (acc : str) : str :=
  match fuel with
  | O => acc
  | S fuel' =>
      let acc' := digit (n mod 10) :: acc in
      if (n <? 10)%N then acc' else digits_fuel fuel' (n / 10)%N acc'
  end.

Definition digits (n : N) : str := digits_fuel (S (N.to_nat (N.log2 n))) n [].

(** [str(z)] and [f"{z}"] for an [int]. *)
Definition str_of_int (z : Z) : str :=
  let ds := digits (Z.to_N (Z.abs z)) in
  if z <? 0 then lit "-" ++ ds else ds.

(** [f"{z:02d}"]: the sign, then the digits padded with zeros to a total
    width of 2 (the sign counts towards the width). *)
Definition format_02d (z : Z) : str :=
  let ds := digits (Z.to_N (Z.abs z)) in
  if z <? 0 then lit "-" ++ ds
  else if decide (length ds < 2)%nat then lit "0" ++ ds else ds.

(** [c.isspace()], the separators of [str.split()] without arguments:
    the characters of bidirectional class WS, B or S and of category Zs. *)
Definition isspace (c : char) : bool :=
  bool_decide (c ∈ [9; 10; 11; 12; 13; 28; 29; 30; 31; 32; 133; 160; 5760;
                    8192; 8193; 8194; 8195; 8196; 8197; 8198; 8199; 8200;
                    8201; 8202; 8232; 8233; 8239; 8287; 12288]%N).


(** [text.split()]: the maximal runs of characters that are not
    whitespace.  [cur] is the run being read. *)
Fixpoint split_from (cur : str) (s : str) : list str :=
  match s with
  | [] => match cur with [] => [] | _ => [cur] end
  | c :: s' =>
      if isspace c
      then match cur with [] => split_from [] s' | _ => cur :: split_from [] s' end
      else split_from (cur ++ [c]) s'
  end.

Definition split (s : str) : list str := split_from [] s.

(** [c.isalnum()] is a table of the Unicode database: a parameter. *)
Class Unicodedata := isalnum : char → bool.

(** On ASCII the table is the letters and the digits. *)
Definition ascii_isalnum (c : char) : bool :=
  ((48 <=? c) && (c <=? 57) || (65 <=? c) && (c <=? 90)
   || (97 <=? c) && (c <=? 122))%N.

(** ** Paths

    A [pathlib.Path] is the list of its components; [sorted] compares
    paths component by component. *)
Definition path : Type := list str.

(** The root of an absolute path is the component ["/"]. *)
Definition root : str := [47%N].

(** [p.name]: the last component, [''] for the root and the empty path. *)
Definition name (p : path) : str :=
  match last p with
  | Some c => if decide (c = root) then [] else c
  | None => []
  end.

(** The components of a path written as a string: the pieces between
    slashes, without the empty ones and the single dots; a leading slash
    gives the root.  [..] is kept: paths are compared as written, the
    model resolves neither [..] nor links. *)
Fixpoint pieces (cur : str) (s : str) : list str :=
  match s with
  | [] => [cur]
  | c :: s' => if decide (c = 47%N) then cur :: pieces [] s'
               else pieces (cur ++ [c]) s'
  end.

Definition parts (s : str) : path :=
  (if startswith root s then [root] else [])
    ++ filter (λ c, c ≠ [] ∧ c ≠ [46%N]) (pieces [] s).

(** [p / s] *)
Definition joinpath (p : path) (s : str) : path :=
  if startswith root s then parts s else p ++ parts s.

Definition dot : char := 46%N.

(** [Path.suffix] and [Path.stem] of a name: the name is cut at its last
    dot unless that dot is the first or the last character. *)
Definition cut_point (nm : str) : option nat :=
  match rfind dot nm with
  | Some i => if decide (0 < i < length nm - 1)%nat then Some i else None
  | None => None
  end.


Definition stem (nm : str) : str :=
  match cut_point nm with Some i => take i nm | None => nm end.

(** [sorted(xs)]: the order is total and antisymmetric, so the sorted
    list does not depend on the algorithm; merge sort stands in for
    Python's. *)
Definition sorted `{Cmp A} (xs : list A) : list A := merge_sort le xs.

(** [enumerate(xs, start)] *)
Fixpoint enumerate {A} (start : Z) (xs : list A) : list (Z * A) :=
  match xs with
  | [] => []
  | x :: xs' => (start, x) :: enumerate (start + 1) xs'
  end.

(** [d[k]] and [d.get(k)] on a dict kept as the list of its items. *)
Definition dict_get {K V} `{EqDecision K} (k : K) (d : list (K * V))
  : option V :=
  snd <$> find (λ kv, bool_decide (kv.1 = k)) d.

(** File contents. *)
Definition bytes : Type := list Byte.byte.

End Py.

Export Py.

(** * Floating point

    A Python [float] is a binary64 number.  It is modelled by the
    rational it denotes, and every operation by the exact operation
    followed by rounding to the nearest number with a 53-bit significand,
    ties to even.  The exponent is unbounded: overflow and gradual
    underflow, which the magnitudes of this program (pixel counts and
    their ratios) never reach, are outside the model. *)

Module Float.

(** The integer nearest to [n / d] for [d > 0], ties to even. *)
Definition round_half_even (n d : Z) : Z :=
  let q := n / d in
  match 2 * (n mod d) ?= d with
  | Lt => q
  | Gt => q + 1
  | Eq => if Z.even q then q else q + 1
  end.

(** [2 ^ k <= n / d], for positive [n] and [d]. *)
Definition ge_pow2 (n d k : Z) : bool :=
  d * 2 ^ Z.max 0 k <=? n * 2 ^ Z.max 0 (- k).

(** The exponent [e] of the last place of [n / d]:
    [2 ^ 52 <= (n / d) / 2 ^ e < 2 ^ 53]. *)
Definition ulp_exp (n d : Z) : Z :=
  let k := Z.log2 n - Z.log2 d in
  (if ge_pow2 n d k then k else k - 1) - 52.

Definition round_pos (n d : Z) : Q :=
  let e := ulp_exp n d in
  let up := 2 ^ Z.max 0 e in
  let down := 2 ^ Z.max 0 (- e) in
  Qmake (round_half_even (n * down) (d * up) * up) (Z.to_pos down).

(** Rounding to binary64. *)
Definition round (x : Q) : Q :=
  match Qnum x with
  | Z0 => 0%Q
  | Zpos n => round_pos (Zpos n) (Zpos (Qden x))
  | Zneg n => (- round_pos (Zpos n) (Zpos (Qden x)))%Q
  end.

(** A decimal literal of the source, [n / d] written in decimal. *)
Definition literal (n : Z) (d : positive) : Q := round (n # d).

(** [float(z)], the conversion that [z * x] applies to an [int]. *)
Definition of_int (z : Z) : Q := round (inject_Z z).

(** [x * y] on floats, [z * x] for an [int] and a [float]. *)
Definition mul (x y : Q) : Q := round (x * y)%Q.
Definition int_mul (z : Z) (x : Q) : Q := mul (of_int z) x.




(** [int(x)]: truncation towards zero. *)
Definition to_int (x : Q) : Z := Z.quot (Qnum x) (Zpos (Qden x)).

End Float.

(** * [vision_analyzer.py] *)

Module VisionAnalyzer.

(** One record of the ranking, as [analyze_and_rank_screenshots]
    documents it. *)
Record RankResult := {
  original_name : str;
  rank : Z;
  rank_reason : str;
  hero_shot : bool;
  title : str;
  subtitle : str;
  detected_content : list str;
  confidence : Q
}.

(** The result of [analyze_screenshot]. *)
Record Analysis := {
  a_title : str;
  a_subtitle : str;
  a_detected_content : list str;
  a_confidence : Q
}.

(** The hosted service.  [rank_call] is the whole [try] block of
    [analyze_and_rank_screenshots] (request, clean-up of the answer,
    [json.loads], logging) and [caption_call] that of
    [analyze_screenshot]: [None] when an [Exception] leaves the block. *)
Class Oracle := {
  rank_call : list (str * bytes) → str → str → option (list RankResult);
  caption_call : str → bytes → str → str → option Analysis
}.

(** The service that always fails. *)
Definition failing_oracle : Oracle :=
  {| rank_call := λ _ _ _, None; caption_call := λ _ _ _ _, None |}.

(** [open(img_path, 'rb').read()] for every path, before the [try]:
    [None] when one of them cannot be read. *)
Fixpoint read_all (read : path → option bytes) (image_paths : list path)
  : option (list (str * bytes)) :=
  match image_paths with
  | [] => Some []
  | p :: ps =>
      match read p with
      | None => None
      | Some data =>
          match read_all read ps with
          | None => None
          | Some images_data => Some ((name p, data) :: images_data)
          end
      end
  end.

Definition fallback_record (idx : Z) (img_path : path) : RankResult :=
  {| original_name := name img_path;
     rank := idx;
     rank_reason := lit "Fallback alphabetical ordering (API error)";
     hero_shot := bool_decide (idx = 1);
     title := lit "Get Hooked!";
     subtitle := lit "Your intelligent fishing companion";
     detected_content := [lit "unknown"];
     confidence := 0%Q |}.

(** The [except] branch: [enumerate(sorted(image_paths), 1)]. *)
Definition fallback (image_paths : list path) : list RankResult :=
  map (λ ip, fallback_record ip.1 ip.2) (enumerate 1 (sorted image_paths)).

Definition analyze_and_rank_screenshots `{Oracle}
    (read : path → option bytes)
    (image_paths : list path) (platform device_type : str)
  : outcome (list RankResult) :=
  match read_all read image_paths with
  | None => Raised
  | Some images_data =>
      match rank_call images_data platform device_type with
      | Some results => Returned results
      | None => Returned (fallback image_paths)
      end
  end.



End VisionAnalyzer.

Export VisionAnalyzer.

(** * [screenshot_pipeline.py]: [analyze] *)

Module Pipeline.


(** One entry of the persisted document.  The keys [rank], [rank_reason]
    and [hero_shot] are written with auto-ordering only. *)
Record ScreenshotConfig := {
  sc_file : str;
  sc_original_name : str;
  sc_rank : option Z;
  sc_rank_reason : option str;
  sc_hero_shot : option bool;
  sc_title : str;
  sc_subtitle : str;
  sc_detected_content : list str;
  sc_confidence : Q
}.

Record PlatformConfig := {
  theme : str;
  device_type : str;
  screenshots : list ScreenshotConfig
}.

(** The document of [screenshot_config.json]; [platforms] keeps the
    insertion order of the Python dict. *)
Record PipelineConfig := {
  version : str;
  generated : str;
  auto_ordered : bool;
  platforms : list (str * PlatformConfig)
}.

(** A platform directory: the regular files in it, by name. *)
Abbreviation directory := (gmap str bytes).






Definition quote : char := 34%N.
Definition apostrophe : char := 39%N.
Definition underscore : char := 95%N.

(** [title_slug], then [new_name]. *)
Definition title_slug `{Unicodedata} (t : str) : str :=
  let s := replace_char apostrophe []
             (replace_char quote [] (replace_char 32%N [underscore] t)) in
  filter (λ c, isalnum c || bool_decide (c = underscore) = true) s.

Definition new_name_of `{Unicodedata} (result : RankResult) : str :=
  format_02d (rank result) ++ lit "_" ++ title_slug (title result)
    ++ lit ".png".

(** An element of [temp_mappings]: [(result, temp_path, actual_name)]. *)
Record TempMapping := {
  tm_result : RankResult;
  tm_temp : str;
  tm_actual : str
}.




(** "Build config from mappings". *)
Definition ranked_config `{Unicodedata} (m : TempMapping) : ScreenshotConfig :=
  let result := tm_result m in
  {| sc_file := new_name_of result;
     sc_original_name := original_name result;
     sc_rank := Some (rank result);
     sc_rank_reason := Some (rank_reason result);
     sc_hero_shot := Some (hero_shot result);
     sc_title := title result;
     sc_subtitle := subtitle result;
     sc_detected_content := detected_content result;
     sc_confidence := confidence result |}.






(** The tree under [Input/]: the platform directories that exist. *)
Abbreviation input_tree := (gmap str (gmap str bytes)).



End Pipeline.

Export Pipeline.

(** * [image_processor.py] *)

Module ImageProcessor.

(** [config.FONT_PATHS] *)
Definition FONT_PATHS : list str :=
  [lit "/System/Library/Fonts/SFNSDisplay-Bold.otf";
   lit "/System/Library/Fonts/Helvetica.ttc";
   lit "/usr/share/fonts/truetype/dejavu/DejaVuSans-Bold.ttf";
   lit "/usr/share/fonts/truetype/roboto/Roboto-Bold.ttf";
   lit "Arial Bold";
   lit "Helvetica Bold"].



(** The imaging library.  [truetype path size] is
    [ImageFont.truetype(path, size)], [None] for its [OSError];
    [textbbox text font] is [draw.textbbox((0, 0), text, font=font)],
    the box [(left, top, right, bottom)] of the rendered text. *)
Class Pil := {
  font : Type;
  truetype : str → Z → option font;
  load_default : font;
  textbbox : str → font → Z * Z * Z * Z
}.

Section processor.
Context `{Pil}.

(** The state of an [ImageProcessor]: [self.font_cache]. *)
Abbreviation font_cache := (gmap Z font).

(** The loop of [get_font] over [FONT_PATHS], with the default font
    after it. *)
Fixpoint first_font (font_paths : list str) (size : Z) : font :=
  match font_paths with
  | [] => load_default
  | font_path :: rest =>
      match truetype font_path size with
      | Some f => f
      | None => first_font rest size
      end
  end.

Definition get_font (size : Z) (cache : font_cache) : font * font_cache :=
  match cache !! size with
  | Some f => (f, cache)
  | None =>
      let f := first_font FONT_PATHS size in
      (f, <[size := f]> cache)
  end.

Definition bbox_width (b : Z * Z * Z * Z) : Z :=
  let '(x0, _, x1, _) := b in x1 - x0.

Definition bbox_height (b : Z * Z * Z * Z) : Z :=
  let '(_, y0, _, y1) := b in y1 - y0.

(** [wrap_text]; [space.join(current_line + [word])] is measured. *)
Fixpoint wrap_loop (fnt : font) (max_width : Z) (words : list str)
    (lines : list str) (current_line : list str) : list str :=
  match words with
  | [] =>
      match current_line with
      | [] => lines
      | _ :: _ => lines ++ [join (lit " ") current_line]
      end
  | word :: rest =>
      let test_line := join (lit " ") (current_line ++ [word]) in
      let width := bbox_width (textbbox test_line fnt) in
      if decide (width <= max_width)
      then wrap_loop fnt max_width rest lines (current_line ++ [word])
      else
        match current_line with
        | [] => wrap_loop fnt max_width rest lines [word]
        | _ :: _ =>
            wrap_loop fnt max_width rest
              (lines ++ [join (lit " ") current_line]) [word]
        end
  end.

Definition wrap_text (text : str) (fnt : font) (max_width : Z) : list str :=
  wrap_loop fnt max_width (split text) [] [].

(** The two [while] loops of [calculate_optimal_font_size]: the size
    goes down in steps of 2 while it is above [min_size] and the text is
    wider than [max_text_width].  A loop that starts at [size] ends
    within [size - min_size] rounds, the fuel [shrink] gives it. *)
Fixpoint shrink_loop (fuel : nat) (text : str) (max_text_width min_size : Z)
    (size : Z) (cache : font_cache) : Z * font_cache :=
  match fuel with
  | O => (size, cache)
  | S fuel' =>
      if decide (size > min_size) then
        let '(fnt, cache') := get_font size cache in
        let width := bbox_width (textbbox text fnt) in
        if decide (width <= max_text_width) then (size, cache')
        else shrink_loop fuel' text max_text_width min_size (size - 2) cache'
      else (size, cache)
  end.

Definition shrink (text : str) (max_text_width min_size : Z)
    (size : Z) (cache : font_cache) : Z * font_cache :=
  shrink_loop (Z.to_nat (size - min_size)) text max_text_width min_size
    size cache.

(** [int(n * x)] for an [int] [n] and a literal [x]. *)
Definition scaled (n : Z) (num : Z) (den : positive) : Z :=
  Float.to_int (Float.int_mul n (Float.literal num den)).

Definition calculate_optimal_font_size (title subtitle : str)
    (target_size : Z * Z) (cache : font_cache)
  : (Z * Z * Z) * font_cache :=
  let '(canvas_width, canvas_height) := target_size in
  let max_text_width := scaled canvas_width 90 100 in
  let title_size := scaled canvas_height 5 100 in
  let subtitle_size := scaled canvas_height 3 100 in
  let min_title_size := scaled canvas_height 25 1000 in
  let min_subtitle_size := scaled canvas_height 2 100 in
  let '(title_size, cache) :=
    shrink title max_text_width min_title_size title_size cache in
  let '(subtitle_size, cache) :=
    shrink subtitle max_text_width min_subtitle_size subtitle_size cache in
  let '(title_font, cache) := get_font title_size cache in
  let '(subtitle_font, cache) := get_font subtitle_size cache in
  let title_height := bbox_height (textbbox title title_font) in
  let subtitle_height := bbox_height (textbbox subtitle subtitle_font) in
  let line_spacing := scaled title_height 3 10 in
  let total_height := title_height + line_spacing + subtitle_height in
  ((title_size, subtitle_size, total_height), cache).




End processor.

(** A face to compute with: the font of size [s] has glyphs [s / 2] wide
    on lines [s] high, and a text is as wide as its longest line. *)
Definition line_lengths (text : str) : list Z :=
  map (λ l : str, Z.of_nat (length l)) (pieces [] (map (λ c, if decide (c = 10%N) then 47%N else c) text)).

Definition monospace : Pil :=
  {| font := Z;
     truetype := λ _ size, Some size;
     load_default := 10;
     textbbox := λ text size,
       (0, 0, foldr Z.max 0 (line_lengths text) * size / 2,
        Z.of_nat (length (line_lengths text)) * size) |}.

End ImageProcessor.

Export ImageProcessor.

(** * [screenshot_pipeline.py]: [generate] *)

Module Generate.

(** [config.SIZES] and [config.SIZE_LABELS] of the pipeline. *)
Definition SIZES : list (str * list (str * list (Z * Z))) :=
  [(lit "android", [(lit "phone", [(1080, 1920); (1440, 2560)])]);
   (lit "ios_iphone",
    [(lit "iphone", [(1320, 2868); (1290, 2796); (1284, 2778); (1242, 2208)])]);
   (lit "ios_ipad", [(lit "ipad", [(2064, 2752); (1668, 2388)])])].

Definition SIZE_LABELS : list ((Z * Z) * str) :=
  [((1080, 1920), lit "phone_1080x1920");
   ((1440, 2560), lit "phone_1440x2560");
   ((1320, 2868), lit "6.9_inch");
   ((1290, 2796), lit "6.7_inch");
   ((1284, 2778), lit "6.5_inch");
   ((1242, 2208), lit "5.5_inch");
   ((2064, 2752), lit "13_inch");
   ((1668, 2388), lit "11_inch")].

Definition DEFAULT_SCREENSHOT_SCALE : Q := Float.literal 95 100.

(** The file system: the regular files by path.  A directory exists when
    a file lies below it, so [mkdir] changes nothing. *)
Abbreviation disk := (gmap path bytes).

(** What [generate] takes from its libraries.  [render_png] is
    [create_screenshot_with_text] on the bytes of the source followed by
    [img.save(..., 'PNG', quality=95, optimize=True)]: the bytes written,
    or [None] when an [Exception] leaves the [try] block.  [json_load] is
    [json.load] on the config file, [None] when it raises.  [encode] is
    the codec a text file is written through. *)
Class Host := {
  render_png : bytes → str → str → Z * Z → str → Q → option bytes;
  json_load : bytes → option PipelineConfig;
  encode : str → bytes
}.

Section generate.
Context `{Host}.
Variable base_dir : path.

Definition input_dir : path := base_dir ++ [lit "Input"].
Definition output_dir : path := base_dir ++ [lit "Output"].
Definition config_file : path := base_dir ++ [lit "screenshot_config.json"].

(** The subtree of a platform under [Output/]: what is cleaned, where
    [RESULTS.md] goes. *)
Definition platform_root (platform : str) : option path :=
  if decide (platform = lit "android") then
    Some (output_dir ++ [lit "android"])
  else if decide (platform = lit "ios_iphone") then
    Some (output_dir ++ [lit "ios"; lit "iphone"])
  else if decide (platform = lit "ios_ipad") then
    Some (output_dir ++ [lit "ios"; lit "ipad"])
  else None.

(** [shutil.rmtree(p)] when [p] exists: every file below [p] goes. *)
Definition rmtree (p : path) (dk : disk) : disk :=
  filter (λ kv, ¬ p `prefix_of` kv.1) dk.

Definition platforms_to_clean (config : PipelineConfig) : list path :=
  omap (λ kv, platform_root kv.1) (platforms config).

Definition clean (config : PipelineConfig) (dk : disk) : disk :=
  foldl (λ dk clean_path, rmtree clean_path dk) dk (platforms_to_clean config).

(** The directory of one size of one platform. *)
Definition output_path_of (platform size_label : str) : path :=
  if decide (platform = lit "android") then
    output_dir ++ [platform; lit "phone"; size_label]
  else if decide (platform = lit "ios_iphone") then
    output_dir ++ [lit "ios"; lit "iphone"; size_label]
  else
    output_dir ++ [lit "ios"; lit "ipad"; size_label].

(** The body of the [try]: one size of one screenshot.  An exception
    (no label, an unreadable source, a failure of the renderer) is
    logged and leaves the disk as it is. *)
Definition generate_size (platform filename title subtitle theme : str)
    (source_path : path) (dk : disk) (size : Z * Z) : disk :=
  match dict_get size SIZE_LABELS with
  | None => dk
  | Some size_label =>
      let output_path := output_path_of platform size_label in
      let base_name := stem (name (parts filename)) in
      let output_file := output_path ++ [base_name ++ lit ".png"] in
      match dk !! source_path with
      | None => dk
      | Some source =>
          match render_png source title subtitle size theme
                  DEFAULT_SCREENSHOT_SCALE with
          | None => dk
          | Some png => <[output_file := png]> dk
          end
      end
  end.

(** One screenshot of the config: skipped when it is not among the files
    to regenerate; a source that does not exist is logged and skipped (a
    source that is no regular file fails in every size instead, to the
    same effect). *)
Definition generate_screenshot (regenerate_files : list str)
    (platform theme : str) (dk : disk) (screenshot : ScreenshotConfig)
  : disk :=
  let filename := sc_file screenshot in
  if bool_decide (regenerate_files ≠ []
                  ∧ platform ++ lit "/" ++ filename ∉ regenerate_files)
  then dk
  else
    let source_path := joinpath (joinpath input_dir platform) filename in
    let sizes := default [] (dict_get platform SIZES) in
    foldl (λ dk category,
             foldl (generate_size platform filename (sc_title screenshot)
                      (sc_subtitle screenshot) theme source_path)
                   dk category.2)
          dk sizes.

Definition generate_platform (regenerate_files : list str) (dk : disk)
    (entry : str * PlatformConfig) : disk :=
  let '(platform, platform_config) := entry in
  foldl (generate_screenshot regenerate_files platform (theme platform_config))
        dk (screenshots platform_config).

(** ** [_generate_results_markdown] *)

Definition ascii_upper (s : str) : str :=
  map (λ c, if ((97 <=? c) && (c <=? 122))%N then (c - 32)%N else c) s.

Definition escape_bar (s : str) : str := replace_char 124%N [92; 124]%N s.

Definition trophy : char := 127942%N.

Definition rank_text (ss : ScreenshotConfig) : str :=
  match sc_rank ss with Some r => str_of_int r | None => lit "-" end.

Definition table_row (ss : ScreenshotConfig) : str :=
  let reason := escape_bar (default (lit "-") (sc_rank_reason ss)) in
  let reason :=
    if decide (80 < length reason)%nat then take 77 reason ++ lit "..."
    else reason in
  lit "| " ++ rank_text ss ++ lit " | " ++ sc_file ss ++ lit " | "
    ++ escape_bar (sc_title ss) ++ lit " | " ++ escape_bar (sc_subtitle ss)
    ++ lit " | " ++ reason ++ lit " |".

Definition detail_lines (ss : ScreenshotConfig) : list str :=
  let hero :=
    if default false (sc_hero_shot ss)
    then lit " " ++ [trophy] ++ lit " HERO" else [] in
  let detected := sc_detected_content ss in
  [lit "### #" ++ rank_text ss ++ hero ++ lit ": " ++ sc_title ss;
   [];
   lit "**File:** `" ++ sc_file ss ++ lit "`";
   [];
   lit "**Subtitle:** " ++ sc_subtitle ss;
   [];
   lit "**Why this ranking:** " ++ default (lit "-") (sc_rank_reason ss);
   [];
   lit "**Detected content:** "
     ++ match detected with
        | [] => lit "N/A"
        | _ :: _ => join (lit ", ") detected
        end;
   []].

Definition results_lines (config : PipelineConfig) (platform : str)
    (platform_config : PlatformConfig) : list str :=
  [lit "# Screenshot Analysis - " ++ ascii_upper platform;
   [];
   lit "Generated: " ++ generated config;
   lit "Auto-ordered: "
     ++ (if auto_ordered config then lit "Yes" else lit "No");
   [];
   lit "## Screenshots";
   [];
   lit "| # | Filename | Title | Subtitle | Ranking Reason |";
   lit "|---|----------|-------|----------|----------------|"]
  ++ map table_row (screenshots platform_config)
  ++ [[]; lit "## Detailed Analysis"; []]
  ++ mbind (M := list) detail_lines (screenshots platform_config).

Definition write_results (config : PipelineConfig) (dk : disk)
    (entry : str * PlatformConfig) : disk :=
  let '(platform, platform_config) := entry in
  match platform_root platform with
  | None => dk
  | Some dir =>
      let md_path := dir ++ [lit "RESULTS.md"] in
      <[md_path := encode (join [10%N]
                             (results_lines config platform platform_config))]>
        dk
  end.

Definition generate_results_markdown (config : PipelineConfig) (dk : disk)
  : disk :=
  foldl (write_results config) dk (platforms config).

(** [generate]: how the call ends and the disk it leaves.  A missing or
    unreadable config ends the run before anything is written. *)
Definition generate (regenerate_files : list str) (dk : disk)
  : outcome unit * disk :=
  match dk !! config_file with
  | None => (Raised, dk)
  | Some document =>
      match json_load document with
      | None => (Raised, dk)
      | Some config =>
          let dk :=
            match regenerate_files with
            | [] => clean config dk
            | _ :: _ => dk
            end in
          let dk := foldl (generate_platform regenerate_files) dk
                          (platforms config) in
          (Returned (), generate_results_markdown config dk)
      end
  end.

End generate.

End Generate.

Export Generate.

(** * The vocabulary of the statements

    The predicates and functions the theorems are stated with, and the
    data the examples are computed on. *)

(** A word: a non-empty run without whitespace. *)
Definition is_word (w : str) : Prop :=
  w ≠ [] ∧ Forall (λ c, isspace c = false) w.

Section wrap_vocabulary.
Context `{Pil}.

Definition width_of (fnt : font) (line : str) : Z :=
  bbox_width (textbbox line fnt).

(** What [wrap_loop] keeps true of [current_line], and so of every line:
    it is one word, or it was measured and fits. *)
Definition line_ok (fnt : font) (max_width : Z) (g : list str) : Prop :=
  (∃ w, g = [w]) ∨ width_of fnt (join (lit " ") g) <= max_width.

End wrap_vocabulary.

Section fitter_vocabulary.
Context `{Pil}.

(** The font [get_font] loads for a size when the cache does not know it. *)
Definition loaded (size : Z) : font := first_font FONT_PATHS size.

(** A cache that [get_font] has filled holds, for every size, the font
    that would be loaded for it. *)
Definition cache_ok (cache : gmap Z font) : Prop :=
  ∀ size f, cache !! size = Some f → f = loaded size.

(** The size a [while] loop ends with, whatever the cache. *)
Fixpoint shrunk (fuel : nat) (text : str) (max_text_width min_size : Z)
    (size : Z) : Z :=
  match fuel with
  | O => size
  | S fuel' =>
      if decide (size > min_size) then
        if decide (bbox_width (textbbox text (loaded size)) <= max_text_width)
        then size
        else shrunk fuel' text max_text_width min_size (size - 2)
      else size
  end.

(** [calculate_optimal_font_size] without the cache. *)
Definition fitted (title subtitle : str) (target_size : Z * Z) : Z * Z * Z :=
  let max_text_width := scaled target_size.1 90 100 in
  let title_size :=
    shrunk (Z.to_nat (scaled target_size.2 5 100 - scaled target_size.2 25 1000))
      title max_text_width (scaled target_size.2 25 1000)
      (scaled target_size.2 5 100) in
  let subtitle_size :=
    shrunk (Z.to_nat (scaled target_size.2 3 100 - scaled target_size.2 2 100))
      subtitle max_text_width (scaled target_size.2 2 100)
      (scaled target_size.2 3 100) in
  let title_height := bbox_height (textbbox title (loaded title_size)) in
  let subtitle_height :=
    bbox_height (textbbox subtitle (loaded subtitle_size)) in
  (title_size, subtitle_size,
   title_height + scaled title_height 3 10 + subtitle_height).

End fitter_vocabulary.

Definition is_digit (c : char) : Prop := (48 <= c <= 57)%N.

(** The number a string of digits denotes. *)
Definition undigits (s : str) : N :=
  foldl (λ acc c, acc * 10 + (c - 48))%N 0%N s.

(** The number a formatted rank denotes. *)
Definition parse_int (s : str) : Z :=
  match s with
  | c :: ds => if decide (c = 45%N) then - Z.of_N (undigits ds)
               else Z.of_N (undigits s)
  | [] => 0
  end.







Definition shot_record (nm : str) (r : Z) (t : str) : RankResult :=
  {| original_name := nm; rank := r; rank_reason := lit "because";
     hero_shot := bool_decide (r = 1); title := t;
     subtitle := lit "Heat maps reveal hotspots";
     detected_content := [lit "map"]; confidence := Float.literal 95 100 |}.








Section generate_vocabulary.
Context `{Host}.
Variable base_dir : path.

(** The part of the disk a config lets [generate] clean and write: the
    subtrees of its platforms under [Output/]. *)
Definition zone (config : PipelineConfig) (k : path) : Prop :=
  Exists (λ p, p `prefix_of` k) (platforms_to_clean base_dir config).

(** A step that leaves every file outside [Z] as it is. *)
Definition writes_in (Z : path → Prop) (f : gmap path bytes → gmap path bytes)
  : Prop :=
  ∀ dk k, ¬ Z k → f dk !! k = dk !! k.

(** What [generate] does once the config is read. *)
Definition generation (config : PipelineConfig) (regenerate_files : list str)
    (dk : gmap path bytes) : gmap path bytes :=
  generate_results_markdown base_dir config
    (foldl (generate_platform base_dir regenerate_files) dk (platforms config)).

End generate_vocabulary.

(** A host and a disk to compute with: the renderer prefixes the source
    with the size of the title, the config is found by its first byte. *)
Definition toy_config : PipelineConfig :=
  {| version := lit "1.0.0"; generated := lit "2025-01-01T00:00:00";
     auto_ordered := true;
     platforms :=
       [(lit "android",
         {| theme := lit "gradient_green"; device_type := lit "phone";
            screenshots :=
              [ranked_config (H := ascii_isalnum)
                 {| tm_result := shot_record (lit "map.jpg") 1 (lit "Your Map");
                    tm_temp := lit "_temp_01_map.png";
                    tm_actual := lit "map.jpg" |}] |})] |}.

Definition toy_host : Host :=
  {| render_png := λ source title _ _ _ _,
       Some (repeat Byte.x2a (length title) ++ source);
     json_load := λ document,
       match document with
       | [Byte.x7b] => Some toy_config
       | _ => None
       end;
     encode := λ text, repeat Byte.x23 (length text) |}.

Definition toy_disk : gmap path bytes :=
  {[ [lit "ScreenShots"; lit "screenshot_config.json"] := [Byte.x7b];
     [lit "ScreenShots"; lit "Input"; lit "android"; lit "01_Your_Map.png"]
       := [Byte.x01];
     [lit "ScreenShots"; lit "Output"; lit "android"; lit "stale.png"]
       := [Byte.x02] ]}.


Section compositor_vocabulary.
Context `{Pil}.


End compositor_vocabulary.

(** * Facts about the Python values *)

Section cmp_facts.
Context `{CmpLaws A}.

Lemma cmp_refl (x : A) : cmp x x = Eq.
Proof. by apply cmp_eq. Qed.

Lemma cmp_gt_lt (x y : A) : cmp x y = Gt ↔ cmp y x = Lt.
Proof. rewrite (cmp_opp x y). destruct (cmp x y); simpl; split; congruence. Qed.

Global Instance le_refl : Reflexive (le (A := A)).
Proof. intros x. unfold le. by rewrite cmp_refl. Qed.

Global Instance le_total : Total (le (A := A)).
Proof.
  intros x y. unfold le. rewrite (cmp_opp x y).
  destruct (cmp x y); simpl; [left | left | right]; congruence.
Qed.

Global Instance le_trans : Transitive (le (A := A)).
Proof.
  intros x y z. unfold le. intros Hxy Hyz.
  destruct (cmp x y) eqn:Exy; [| | done].
  - apply cmp_eq in Exy. by subst.
  - destruct (cmp y z) eqn:Eyz; [| | done].
    + apply cmp_eq in Eyz. subst. by rewrite Exy.
    + by rewrite (cmp_lt_trans x y z).
Qed.

Global Instance le_antisym : AntiSymm (=) (le (A := A)).
Proof.
  intros x y. unfold le. rewrite (cmp_opp x y).
  destruct (cmp x y) eqn:E; simpl; [| done..].
  intros _ _. by apply cmp_eq.
Qed.

Lemma lex_cmp_app (p l1 l2 : list A) : lex_cmp (p ++ l1) (p ++ l2) = lex_cmp l1 l2.
Proof. induction p as [|x p IH]; simpl; [done |]. by rewrite cmp_refl. Qed.

Global Instance list_cmp_laws : CmpLaws (list A).
Proof.
  split; unfold cmp, list_cmp.
  - intros l1. induction l1 as [|x l1 IH]; intros [|y l2]; simpl;
      [done | done | done |].
    destruct (cmp x y) eqn:E.
    + apply cmp_eq in E. subst. rewrite IH. split; congruence.
    + split; [done |]. intros [= -> _]. by rewrite cmp_refl in E.
    + split; [done |]. intros [= -> _]. by rewrite cmp_refl in E.
  - intros l1. induction l1 as [|x l1 IH]; intros [|y l2]; simpl;
      [done | done | done |].
    rewrite (cmp_opp x y). destruct (cmp x y); simpl; [apply IH | done..].
  - intros l1. induction l1 as [|x l1 IH]; intros [|y l2] [|z l3]; simpl;
      try done.
    destruct (cmp x y) eqn:Exy; [| | done].
    + apply cmp_eq in Exy. subst y.
      destruct (cmp x z); [apply IH | done..].
    + intros _. destruct (cmp y z) eqn:Eyz; [| | done].
      * apply cmp_eq in Eyz. subst z. by rewrite Exy.
      * by rewrite (cmp_lt_trans x y z).
Qed.

End cmp_facts.

Global Instance char_cmp_laws : CmpLaws char.
Proof.
  split; unfold cmp, char_cmp.
  - apply N.compare_eq_iff.
  - intros x y. apply N.compare_antisym.
  - intros x y z. rewrite !N.compare_lt_iff. apply N.lt_trans.
Qed.

Section sorted_facts.
Context `{CmpLaws A}.

Lemma sorted_Permutation (xs : list A) : sorted xs ≡ₚ xs.
Proof. apply merge_sort_Permutation. Qed.

Lemma sorted_Sorted (xs : list A) : Sorted le (sorted xs).
Proof. apply (Sorted_merge_sort le). Qed.

Lemma sorted_length (xs : list A) : length (sorted xs) = length xs.
Proof. by rewrite sorted_Permutation. Qed.

End sorted_facts.

Lemma enumerate_fst {A} (start : Z) (xs : list A) :
  (enumerate start xs).*1 = seqZ start (Z.of_nat (length xs)).
Proof.
  revert start. induction xs as [|x xs IH]; intros start; [done |].
  cbn [enumerate length fmap list_fmap fst].
  rewrite Nat2Z.inj_succ, seqZ_cons by lia. f_equal.
  rewrite IH. f_equal; lia.
Qed.

Lemma enumerate_snd {A} (start : Z) (xs : list A) :
  (enumerate start xs).*2 = xs.
Proof.
  revert start. induction xs as [|x xs IH]; intros start; [done |].
  cbn. f_equal. apply IH.
Qed.

(** * The fallback of the vision analyzer *)

Section fallback_facts.

Lemma fallback_original_names (image_paths : list path) :
  original_name <$> fallback image_paths = name <$> sorted image_paths.
Proof.
  unfold fallback. rewrite <- (enumerate_snd 1 (sorted image_paths)) at 2.
  rewrite <- !list_fmap_compose. by apply list_fmap_ext.
Qed.

Lemma fallback_ranks (image_paths : list path) :
  rank <$> fallback image_paths = seqZ 1 (Z.of_nat (length image_paths)).
Proof.
  unfold fallback. rewrite <- (sorted_length image_paths), <- enumerate_fst.
  rewrite <- !list_fmap_compose. by apply list_fmap_ext.
Qed.

Lemma fallback_fixed_fields (image_paths : list path) :
  Forall (λ r, hero_shot r = bool_decide (rank r = 1)
               ∧ title r = lit "Get Hooked!"
               ∧ subtitle r = lit "Your intelligent fishing companion"
               ∧ confidence r = 0%Q)
         (fallback image_paths).
Proof. unfold fallback. apply Forall_fmap, Forall_true. by intros [idx p]. Qed.

(** Paths of one directory are ordered as their names are. *)
Lemma Sorted_names_one_directory (parent : path) (ps : list path) :
  Forall (λ p, p = parent ++ [name p]) ps →
  Sorted le ps → Sorted le (name <$> ps).
Proof.
  intros Hdir Hs. induction Hs as [|p ps Hs IH Hhd]; [constructor |].
  apply Forall_cons in Hdir as [Hp Hps]. cbn. constructor; [by apply IH |].
  destruct Hhd as [|q ps' Hpq]; cbn; constructor.
  apply Forall_cons in Hps as [Hq _].
  revert Hpq. unfold le, cmp, list_cmp. rewrite Hp, Hq at 1.
  rewrite lex_cmp_app. cbn. unfold cmp, list_cmp.
  by destruct (lex_cmp (name p) (name q)).
Qed.

End fallback_facts.

(** C1, as amended.  When every image can be read and the oracle call
    fails, [analyze_and_rank_screenshots] returns the fallback list: one
    record per input image, in the order [sorted] gives the paths (for
    paths of one directory, the order of the file names by code point),
    with the ranks 1..N in that order, [hero_shot] exactly on rank 1, the
    fixed title and subtitle, and confidence 0.0. *)
Theorem C1_fallback_on_oracle_failure `{Oracle}
    (read : path → option bytes) (image_paths : list path)
    (platform device : str) (images_data : list (str * bytes)) :
  read_all read image_paths = Some images_data →
  rank_call images_data platform device = None →
  ∃ ordered records,
    analyze_and_rank_screenshots read image_paths platform device
      = Returned records
    ∧ ordered ≡ₚ image_paths
    ∧ Sorted le ordered
    ∧ original_name <$> records = name <$> ordered
    ∧ rank <$> records = seqZ 1 (Z.of_nat (length image_paths))
    ∧ Forall (λ r, (hero_shot r = true ↔ rank r = 1)
                   ∧ title r = lit "Get Hooked!"
                   ∧ subtitle r = lit "Your intelligent fishing companion"
                   ∧ confidence r = 0%Q) records
    ∧ (∀ parent, Forall (λ p, p = parent ++ [name p]) image_paths →
         Sorted le (original_name <$> records)).
Proof.
  intros Hread Hfail. exists (sorted image_paths), (fallback image_paths).
  unfold analyze_and_rank_screenshots. rewrite Hread, Hfail.
  split_and!.
  - done.
  - apply sorted_Permutation.
  - apply sorted_Sorted.
  - apply fallback_original_names.
  - apply fallback_ranks.
  - eapply Forall_impl; [apply fallback_fixed_fields |].
    intros r (Hhero & ? & ? & ?). split_and!; try done.
    rewrite Hhero. apply bool_decide_eq_true.
  - intros parent Hdir. rewrite fallback_original_names.
    apply (Sorted_names_one_directory parent); [| apply sorted_Sorted].
    by rewrite sorted_Permutation.
Qed.

Lemma C1_fallback_witness :
  ∃ records,
    analyze_and_rank_screenshots (H := failing_oracle) (λ _, Some [])
      [[lit "Input"; lit "c.png"]; [lit "Input"; lit "a.png"];
       [lit "Input"; lit "b.png"]] (lit "android") (lit "phone")
      = Returned records
    ∧ original_name <$> records = [lit "a.png"; lit "b.png"; lit "c.png"]
    ∧ rank <$> records = [1; 2; 3].
Proof.
  destruct (C1_fallback_on_oracle_failure (H := failing_oracle)
              (λ _, Some [])
              [[lit "Input"; lit "c.png"]; [lit "Input"; lit "a.png"];
               [lit "Input"; lit "b.png"]] (lit "android") (lit "phone")
              _ eq_refl eq_refl)
    as (ordered & records & Hret & _ & _ & _ & Hranks & _).
  exists records. split; [exact Hret |].
  injection Hret as <-. split; reflexivity.
Defined.

(** C1 as stated fails: two paths of different directories come back in
    the order of the paths, which is not the order of the file names. *)
Lemma C1_counterexample :
  ∃ records,
    analyze_and_rank_screenshots (H := failing_oracle) (λ _, Some [])
      [[lit "b"; lit "a.png"]; [lit "a"; lit "b.png"]]
      (lit "android") (lit "phone") = Returned records
    ∧ original_name <$> records = [lit "b.png"; lit "a.png"]
    ∧ ¬ Sorted le (original_name <$> records).
Proof.
  eexists. split; [reflexivity |]. split; [reflexivity |].
  intros Hs. apply Sorted_inv in Hs as [_ Hhd].
  apply HdRel_inv in Hhd. by vm_compute in Hhd.
Qed.

(** * [split] and [join] *)

Lemma split_from_words (s cur : str) :
  Forall (λ c, isspace c = false) cur → Forall is_word (split_from cur s).
Proof.
  revert cur. induction s as [|c s IH]; intros cur Hcur; simpl.
  - destruct cur as [|a cur]; [constructor |].
    apply Forall_cons. split; [by split | constructor].
  - destruct (isspace c) eqn:Ec.
    + destruct cur as [|a cur]; [by apply IH |].
      apply Forall_cons. split; [by split | by apply IH].
    + apply IH, Forall_app. split; [done |].
      apply Forall_cons. split; [done | constructor].
Qed.

Lemma split_words (s : str) : Forall is_word (split s).
Proof. by apply split_from_words. Qed.

Lemma split_from_app (w cur s : str) :
  Forall (λ c, isspace c = false) w →
  split_from cur (w ++ s) = split_from (cur ++ w) s.
Proof.
  revert cur. induction w as [|a w IH]; intros cur Hw; simpl.
  - by rewrite app_nil_r.
  - apply Forall_cons in Hw as [-> Hw]. rewrite IH by done.
    by rewrite <- app_assoc.
Qed.

Lemma split_from_space (cur s : str) :
  cur ≠ [] → split_from cur (lit " " ++ s) = cur :: split_from [] s.
Proof.
  intros Hne. change (lit " " ++ s) with (32%N :: s).
  cbn [split_from]. replace (isspace 32%N) with true by by vm_compute.
  by destruct cur.
Qed.

Lemma split_join (ws : list str) :
  Forall is_word ws → split (join (lit " ") ws) = ws.
Proof.
  unfold split. induction 1 as [|w ws [Hne Hw] Hws IH]; [done |].
  destruct ws as [|w' ws].
  - pose proof (split_from_app w [] [] Hw) as E.
    rewrite app_nil_r in E. simpl in *. rewrite E. by destruct w.
  - change (join (lit " ") (w :: w' :: ws))
      with (w ++ lit " " ++ join (lit " ") (w' :: ws)).
    rewrite split_from_app, split_from_space by done.
    by rewrite IH.
Qed.

Lemma join_app (sep : str) (l1 l2 : list str) :
  l1 ≠ [] → l2 ≠ [] →
  join sep (l1 ++ l2) = join sep l1 ++ sep ++ join sep l2.
Proof.
  intros H1 H2. induction l1 as [|a [|b l1] IH]; [done | |].
  - by destruct l2.
  - change (join sep ((a :: b :: l1) ++ l2))
      with (a ++ sep ++ join sep ((b :: l1) ++ l2)).
    rewrite IH by done. simpl. by rewrite <- !app_assoc.
Qed.

Lemma join_concat (sep : str) (groups : list (list str)) :
  Forall (λ g, g ≠ []) groups →
  join sep (join sep <$> groups) = join sep (concat groups).
Proof.
  induction 1 as [|g groups Hg Hgs IH]; [done |].
  destruct groups as [|g' groups].
  - simpl. by rewrite app_nil_r.
  - change (join sep (join sep <$> g :: g' :: groups))
      with (join sep g ++ sep ++ join sep (join sep <$> g' :: groups)).
    rewrite IH. change (concat (g :: g' :: groups))
      with (g ++ concat (g' :: groups)).
    rewrite join_app; [done | done |].
    apply Forall_cons in Hgs as [Hg' _]. simpl. by destruct g'.
Qed.

(** * [wrap_text] *)

Section wrap_facts.
Context `{Pil}.

Lemma wrap_loop_groups (fnt : font) (max_width : Z)
    (words lines current_line : list str) :
  current_line = [] ∨ line_ok fnt max_width current_line →
  ∃ groups,
    wrap_loop fnt max_width words lines current_line
      = lines ++ (join (lit " ") <$> groups)
    ∧ concat groups = current_line ++ words
    ∧ Forall (λ g, g ≠ [] ∧ line_ok fnt max_width g) groups.
Proof.
  revert lines current_line.
  induction words as [|word rest IH]; intros lines current_line Hcur;
    cbn [wrap_loop].
  - destruct current_line as [|w cl].
    + exists []. by rewrite app_nil_r.
    + exists [w :: cl]. split_and!; [done | cbn; by rewrite !app_nil_r |].
      apply Forall_cons. split; [| constructor].
      split; [done |]. by destruct Hcur.
  - case_decide as Hfit.
    + destruct (IH lines (current_line ++ [word])) as (groups & -> & Hc & Hg).
      { right. by right. }
      exists groups. by rewrite Hc, <- app_assoc.
    + destruct current_line as [|w cl].
      * destruct (IH lines [word]) as (groups & -> & Hc & Hg).
        { right. left. by eexists. }
        by exists groups.
      * destruct (IH (lines ++ [join (lit " ") (w :: cl)]) [word])
          as (groups & -> & Hc & Hg).
        { right. left. by eexists. }
        exists ((w :: cl) :: groups). split_and!.
        -- by rewrite <- app_assoc.
        -- cbn [concat]. by rewrite Hc.
        -- apply Forall_cons. split; [| done].
           split; [done |]. by destruct Hcur.
Qed.

End wrap_facts.

(** C10.  The lines [wrap_text] returns are the words of the text, in
    order, in groups: splitting the lines, one by one or joined by
    spaces, gives back exactly [text.split()].  Every line is a single
    word or was measured to fit, so a word wider than [max_width] is
    alone on its line (for a line that is at least as wide as the words
    on it) and is never dropped. *)
Theorem C10_wrap_text_keeps_words `{Pil} (text : str) (fnt : font)
    (max_width : Z) :
  ∃ groups : list (list str),
    wrap_text text fnt max_width = join (lit " ") <$> groups
    ∧ concat groups = split text
    ∧ mbind (M := list) split (wrap_text text fnt max_width) = split text
    ∧ split (join (lit " ") (wrap_text text fnt max_width)) = split text
    ∧ Forall (λ g, g ≠ []
                   ∧ ∀ w, w ∈ g →
                       max_width < width_of fnt w →
                       width_of fnt w <= width_of fnt (join (lit " ") g) →
                       g = [w]) groups.
Proof.
  destruct (wrap_loop_groups fnt max_width (split text) [] [])
    as (groups & Hw & Hc & Hg); [by left |].
  simpl in Hw, Hc. exists groups. unfold wrap_text. rewrite Hw.
  assert (Hwords : Forall (λ g, Forall is_word g) groups).
  { apply Forall_forall. intros g Hin.
    apply Forall_forall. intros w Hwg.
    pose proof (split_words text) as Hall. rewrite <- Hc in Hall.
    eapply Forall_forall in Hall; [done |].
    apply list_elem_of_In, in_concat. exists g.
    by rewrite <- !list_elem_of_In. }
  split_and!; [done | done | | |].
  - rewrite <- Hc. clear Hc Hw Hg.
    induction Hwords as [|g groups Hgw _ IH]; [done |].
    cbn. rewrite split_join by done. f_equal. apply IH.
  - rewrite join_concat, Hc.
    + apply split_join, split_words.
    + eapply Forall_impl; [exact Hg |]. by intros g [? _].
  - eapply Forall_impl; [exact Hg |]. intros g [Hne Hok].
    split; [done |]. intros w Hin Hwide Hmono.
    destruct Hok as [[w' ->] | Hfit]; [| lia].
    apply list_elem_of_singleton in Hin. by subst.
Qed.

(** The theorem at work: with the monospace face of size 10 (glyphs 5
    wide) and room for 25, the over-wide second word gets a line of its
    own. *)
Lemma C10_wrap_text_witness :
  wrap_text (H := monospace) (lit "aa  bbbbbbbbb cc dd") 10 25
    = [lit "aa"; lit "bbbbbbbbb"; lit "cc dd"]
  ∧ split (join (lit " ")
             (wrap_text (H := monospace) (lit "aa  bbbbbbbbb cc dd") 10 25))
    = [lit "aa"; lit "bbbbbbbbb"; lit "cc"; lit "dd"].
Proof.
  destruct (C10_wrap_text_keeps_words (H := monospace)
              (lit "aa  bbbbbbbbb cc dd") 10 25)
    as (groups & _ & _ & _ & Hsplit & _).
  split; [reflexivity |]. rewrite Hsplit. reflexivity.
Defined.

(** * The font cache and the text fitter *)

Section fitter_facts.
Context `{Pil}.

Lemma cache_ok_empty : cache_ok ∅.
Proof. intros size f. by rewrite lookup_empty. Qed.

Lemma get_font_spec (size : Z) (cache : gmap Z font) :
  cache_ok cache →
  (get_font size cache).1 = loaded size
  ∧ cache_ok (get_font size cache).2
  ∧ cache ⊆ (get_font size cache).2
  ∧ (get_font size cache).2 !! size = Some (loaded size).
Proof.
  intros Hok. unfold get_font. destruct (cache !! size) as [f|] eqn:E; cbn.
  - pose proof (Hok _ _ E) as ->. by split_and!.
  - split_and!; [done | | by apply insert_subseteq | by apply lookup_insert_eq].
    intros s f. rewrite lookup_insert. case_decide; [| by apply Hok].
    intros [= <-]. by subst.
Qed.

Lemma shrink_loop_spec (fuel : nat) (text : str) (max_text_width min_size : Z)
    (size : Z) (cache : gmap Z font) :
  cache_ok cache →
  (shrink_loop fuel text max_text_width min_size size cache).1
    = shrunk fuel text max_text_width min_size size
  ∧ cache_ok (shrink_loop fuel text max_text_width min_size size cache).2
  ∧ cache ⊆ (shrink_loop fuel text max_text_width min_size size cache).2.
Proof.
  revert size cache. induction fuel as [|fuel IH]; intros size cache Hok;
    cbn [shrink_loop shrunk]; [done |].
  case_decide; [| done].
  destruct (get_font_spec size cache Hok) as (Hf & Hok' & Hsub & _).
  destruct (get_font size cache) as [fnt cache'].
  cbn [fst snd] in Hf, Hok', Hsub. subst fnt. case_decide; [done |].
  destruct (IH (size - 2) cache' Hok') as (? & ? & ?).
  split_and!; [done | done |]. by etrans.
Qed.

(** The loop never needs more fuel than [shrink] gives it: the equation
    of the [while] loop. *)
Lemma shrink_loop_fuel (n m : nat) (text : str) (max_text_width min_size : Z)
    (size : Z) (cache : gmap Z font) :
  (Z.to_nat (size - min_size) ≤ n)%nat →
  (Z.to_nat (size - min_size) ≤ m)%nat →
  shrink_loop n text max_text_width min_size size cache
    = shrink_loop m text max_text_width min_size size cache.
Proof.
  revert m size cache. induction n as [|n IH]; intros [|m] size cache Hn Hm;
    cbn [shrink_loop]; try done.
  - case_decide; [lia | done].
  - case_decide; [lia | done].
  - case_decide; [| done].
    destruct (get_font size cache) as [fnt cache'].
    case_decide; [done |]. apply IH; lia.
Qed.

Lemma shrink_unfold (text : str) (max_text_width min_size size : Z)
    (cache : gmap Z font) :
  shrink text max_text_width min_size size cache
    = if decide (size > min_size) then
        let '(fnt, cache') := get_font size cache in
        if decide (bbox_width (textbbox text fnt) <= max_text_width)
        then (size, cache')
        else shrink text max_text_width min_size (size - 2) cache'
      else (size, cache).
Proof.
  unfold shrink. case_decide as Hgt.
  - destruct (Z.to_nat (size - min_size)) as [|n] eqn:E; [lia |].
    cbn [shrink_loop]. rewrite decide_True by done.
    destruct (get_font size cache) as [fnt cache'].
    case_decide; [done |]. apply shrink_loop_fuel; lia.
  - destruct (Z.to_nat (size - min_size)); cbn [shrink_loop]; [done |].
    by rewrite decide_False.
Qed.



Lemma calculate_optimal_font_size_spec (title subtitle : str)
    (target_size : Z * Z) (cache : gmap Z font) :
  cache_ok cache →
  (calculate_optimal_font_size title subtitle target_size cache).1
    = fitted title subtitle target_size
  ∧ cache_ok (calculate_optimal_font_size title subtitle target_size cache).2
  ∧ cache ⊆ (calculate_optimal_font_size title subtitle target_size cache).2
  ∧ (calculate_optimal_font_size title subtitle target_size cache).2
      !! (fitted title subtitle target_size).1.1
    = Some (loaded (fitted title subtitle target_size).1.1).
Proof.
  intros Hok. destruct target_size as [canvas_width canvas_height].
  unfold calculate_optimal_font_size, fitted, shrink. cbn [fst snd].
  match goal with |- context [shrink_loop ?n title ?w ?m ?s cache] =>
    destruct (shrink_loop_spec n title w m s cache Hok) as (E1 & Hok1 & Hs1);
    destruct (shrink_loop n title w m s cache) as [title_size c1] end.
  cbn [fst snd] in E1, Hok1, Hs1. rewrite <- E1.
  match goal with |- context [shrink_loop ?n subtitle ?w ?m ?s c1] =>
    destruct (shrink_loop_spec n subtitle w m s c1 Hok1) as (E2 & Hok2 & Hs2);
    destruct (shrink_loop n subtitle w m s c1) as [subtitle_size c2] end.
  cbn [fst snd] in E2, Hok2, Hs2. rewrite <- E2.
  destruct (get_font_spec title_size c2 Hok2) as (E3 & Hok3 & Hs3 & Hl3).
  destruct (get_font title_size c2) as [title_font c3].
  cbn [fst snd] in E3, Hok3, Hs3, Hl3.
  destruct (get_font_spec subtitle_size c3 Hok3) as (E4 & Hok4 & Hs4 & _).
  destruct (get_font subtitle_size c3) as [subtitle_font c4].
  cbn [fst snd] in E4, Hok4, Hs4. subst title_font subtitle_font.
  split_and!; [done | done | |].
  - by repeat (etrans; [eassumption |]).
  - eapply lookup_weaken; eassumption.
Qed.

End fitter_facts.




(** C4, as amended.  [calculate_optimal_font_size] changes the state of
    the processor only by adding loaded fonts to the font cache, and its
    result does not depend on what the cache holds: two runs on the same
    input return the same triple, from any two caches that [get_font]
    has filled and so also one after the other. *)
Theorem C4_fitter_deterministic `{Pil} (title subtitle : str)
    (target_size : Z * Z) (cache1 cache2 : gmap Z font) :
  cache_ok cache1 → cache_ok cache2 →
  (calculate_optimal_font_size title subtitle target_size cache1).1
    = (calculate_optimal_font_size title subtitle target_size cache2).1
  ∧ cache1
      ⊆ (calculate_optimal_font_size title subtitle target_size cache1).2
  ∧ cache_ok (calculate_optimal_font_size title subtitle target_size cache1).2
  ∧ (calculate_optimal_font_size title subtitle target_size
       (calculate_optimal_font_size title subtitle target_size cache1).2).1
    = (calculate_optimal_font_size title subtitle target_size cache1).1.
Proof.
  intros Hok1 Hok2.
  destruct (calculate_optimal_font_size_spec title subtitle target_size
              cache1 Hok1) as (E1 & Hok1' & Hsub & _).
  destruct (calculate_optimal_font_size_spec title subtitle target_size
              cache2 Hok2) as (E2 & _).
  destruct (calculate_optimal_font_size_spec title subtitle target_size
              _ Hok1') as (E3 & _).
  split_and!; [congruence | done | done | congruence].
Qed.

Lemma C4_fitter_witness :
  (calculate_optimal_font_size (H := monospace)
     (lit "Find Fish in Real-Time")
     (lit "Heat maps reveal hotspots instantly") (1290, 2796)
     (calculate_optimal_font_size (H := monospace)
        (lit "Find Fish in Real-Time")
        (lit "Heat maps reveal hotspots instantly") (1290, 2796) ∅).2).1
  = (105, 65, 201).
Proof.
  destruct (C4_fitter_deterministic (H := monospace)
              (lit "Find Fish in Real-Time")
              (lit "Heat maps reveal hotspots instantly") (1290, 2796) ∅ ∅
              cache_ok_empty cache_ok_empty) as (_ & _ & _ & ->).
  by vm_compute.
Defined.

(** C4 as stated fails: the call leaves the fonts it loaded in the cache
    of the processor. *)
Lemma C4_counterexample :
  (calculate_optimal_font_size (H := monospace)
     (lit "Find Fish in Real-Time")
     (lit "Heat maps reveal hotspots instantly") (1290, 2796) ∅).2
  ≠ ∅.
Proof.
  intros E.
  destruct (calculate_optimal_font_size_spec (H := monospace)
              (lit "Find Fish in Real-Time")
              (lit "Heat maps reveal hotspots instantly") (1290, 2796) ∅
              cache_ok_empty) as (_ & _ & _ & Hl).
  rewrite E, lookup_empty in Hl. done.
Qed.

(** * Formatting of ranks and the names built from them *)

Lemma undigits_snoc (s : str) (c : char) :
  undigits (s ++ [c]) = (undigits s * 10 + (c - 48))%N.
Proof. unfold undigits. by rewrite foldl_app. Qed.

Lemma digits_fuel_spec (fuel : nat) (n : N) (acc : str) :
  (n < 10 ^ N.of_nat fuel)%N → (0 < fuel)%nat →
  ∃ ds, digits_fuel fuel n acc = ds ++ acc
        ∧ undigits ds = n ∧ Forall is_digit ds ∧ ds ≠ [].
Proof.
  revert n acc. induction fuel as [|fuel IH]; intros n acc Hn Hfuel; [lia |].
  cbn [digits_fuel].
  assert (is_digit (digit (n mod 10))) as Hdigit.
  { pose proof (N.mod_lt n 10 ltac:(done)) as Hmod. unfold is_digit, digit.
    set (m := (n mod 10)%N) in *. clearbody m. lia. }
  destruct (n <? 10)%N eqn:E.
  - apply N.ltb_lt in E. exists [digit (n mod 10)]. split_and!; [done | | | done].
    + unfold undigits, digit. cbn. rewrite N.mod_small by done. lia.
    + by apply Forall_singleton.
  - apply N.ltb_ge in E.
    assert (0 < fuel)%nat as Hpos.
    { destruct fuel; [| lia]. cbn in Hn. lia. }
    destruct (IH (n / 10)%N (digit (n mod 10) :: acc)) as (ds & -> & Hv & Hd & _);
      [| done |].
    { apply N.Div0.div_lt_upper_bound.
      rewrite Nat2N.inj_succ, N.pow_succ_r' in Hn. lia. }
    exists (ds ++ [digit (n mod 10)]). split_and!.
    + by rewrite <- app_assoc.
    + rewrite undigits_snoc, Hv. unfold digit.
      pose proof (N.div_mod n 10 ltac:(done)) as Hdm.
      set (q := (n / 10)%N) in *. set (m := (n mod 10)%N) in *.
      clearbody q m. clear -Hdm. lia.
    + apply Forall_app. split; [done |]. by apply Forall_singleton.
    + by destruct ds.
Qed.

Lemma digits_spec (n : N) :
  undigits (digits n) = n ∧ Forall is_digit (digits n) ∧ digits n ≠ [].
Proof.
  unfold digits.
  destruct (digits_fuel_spec (S (N.to_nat (N.log2 n))) n [])
    as (ds & -> & ? & ? & ?); [| lia | by rewrite app_nil_r].
  rewrite Nat2N.inj_succ, N2Nat.id.
  destruct (decide (n = 0%N)) as [->|]; [done |].
  eapply N.lt_le_trans; [apply N.log2_spec; lia |].
  apply N.pow_le_mono_l. lia.
Qed.

Lemma parse_format_02d (z : Z) : parse_int (format_02d z) = z.
Proof.
  unfold format_02d. destruct (digits_spec (Z.to_N (Z.abs z))) as (Hv & Hd & Hne).
  destruct (z <? 0) eqn:E.
  - apply Z.ltb_lt in E. cbn [lit app parse_int].
    rewrite decide_True by done. rewrite Hv. lia.
  - apply Z.ltb_ge in E.
    destruct (digits (Z.to_N (Z.abs z))) as [|c ds] eqn:Eds; [done |].
    apply Forall_cons in Hd as [Hc _]. unfold is_digit in Hc.
    case_decide.
    + cbn [lit app parse_int]. rewrite decide_False by done.
      change (undigits (N_of_ascii "0" :: c :: ds)) with (undigits (c :: ds)).
      rewrite Hv. lia.
    + cbn [parse_int]. rewrite decide_False by lia. rewrite Hv. lia.
Qed.

Global Instance format_02d_inj : Inj (=) (=) format_02d.
Proof.
  intros x y E. by rewrite <- (parse_format_02d x), E, parse_format_02d.
Qed.







Section new_names.
Context `{Unicodedata}.



End new_names.





(** * Moving files *)



(** * The two passes of the rename *)













Section rename_facts.
Context `{Unicodedata}.


End rename_facts.

(** * The rename protocol of [analyze] *)

(** Closed decidable facts, by evaluation. *)













(** * [generate] *)

Section generate_facts.
Context `{Host}.
Variable base_dir : path.

Lemma writes_in_foldl {A} (Z : path → Prop)
    (f : gmap path bytes → A → gmap path bytes) (l : list A) :
  (∀ a, a ∈ l → writes_in Z (λ dk, f dk a)) →
  writes_in Z (λ dk, foldl f dk l).
Proof.
  induction l as [|a l IH]; intros Hf dk k Hk; cbn; [done |].
  rewrite IH; [| intros a' Ha'; apply Hf; by right | done].
  apply (Hf a); [by left | done].
Qed.

Lemma writes_in_insert (Z : path → Prop) (p : path) (data : bytes) :
  Z p → writes_in Z (λ dk, <[p := data]> dk).
Proof.
  intros Hp dk k Hk. apply lookup_insert_ne. by intros ->.
Qed.

Lemma writes_in_id (Z : path → Prop) : writes_in Z (λ dk, dk).
Proof. done. Qed.

Lemma platform_root_output (platform : str) (p : path) :
  platform_root base_dir platform = Some p →
  output_dir base_dir `prefix_of` p.
Proof.
  unfold platform_root. repeat case_decide; intros [= <-];
    by apply prefix_app_r.
Qed.

Lemma zone_output (config : PipelineConfig) (k : path) :
  zone base_dir config k → output_dir base_dir `prefix_of` k.
Proof.
  intros (p & Hp & Hpk)%Exists_exists.
  apply list_elem_of_omap in Hp as ([platform pc] & _ & Hroot).
  etrans; [by eapply platform_root_output | done].
Qed.

Lemma zone_platform (config : PipelineConfig) (platform : str)
    (pc : PlatformConfig) (p k : path) :
  (platform, pc) ∈ platforms config →
  platform_root base_dir platform = Some p →
  p `prefix_of` k → zone base_dir config k.
Proof.
  intros Hin Hroot Hpk. apply Exists_exists. exists p. split; [| done].
  apply list_elem_of_omap. by exists (platform, pc).
Qed.

(** The config file is not under [Output/]. *)
Lemma config_file_outside :
  ¬ output_dir base_dir `prefix_of` config_file base_dir.
Proof.
  unfold output_dir, config_file. intros Hp%prefix_app_inv.
  destruct Hp as [rest Hp]. by injection Hp.
Qed.

(** Platforms without sizes get no file. *)
Lemma sizes_known (platform : str) :
  platform ≠ lit "android" → platform ≠ lit "ios_iphone" →
  platform ≠ lit "ios_ipad" → dict_get platform SIZES = None.
Proof.
  intros H1 H2 H3. unfold dict_get, SIZES. cbn [find fst].
  by rewrite !bool_decide_eq_false_2 by done.
Qed.

Lemma output_path_in_root (platform size_label : str) :
  is_Some (dict_get platform SIZES) →
  ∃ p, platform_root base_dir platform = Some p
       ∧ p `prefix_of` output_path_of base_dir platform size_label.
Proof.
  intros Hsizes. unfold platform_root, output_path_of.
  destruct (decide (platform = lit "android")) as [->|Ha].
  { eexists. split; [done |]. by apply prefix_app, prefix_cons, prefix_nil. }
  destruct (decide (platform = lit "ios_iphone")) as [->|Hi].
  { eexists. split; [done |].
    by apply prefix_app, prefix_cons, prefix_cons, prefix_nil. }
  destruct (decide (platform = lit "ios_ipad")) as [->|Hp].
  { eexists. split; [done |].
    by apply prefix_app, prefix_cons, prefix_cons, prefix_nil. }
  rewrite sizes_known in Hsizes by done. by destruct Hsizes.
Qed.

Lemma generate_size_writes (config : PipelineConfig) (platform : str)
    (pc : PlatformConfig) (filename title subtitle theme : str)
    (source_path : path) (size : Z * Z) :
  (platform, pc) ∈ platforms config →
  is_Some (dict_get platform SIZES) →
  writes_in (zone base_dir config)
    (λ dk, generate_size base_dir platform filename title subtitle theme
             source_path dk size).
Proof.
  intros Hin Hsizes dk k Hk. unfold generate_size.
  destruct (dict_get size SIZE_LABELS) as [size_label|]; [| done].
  destruct (dk !! source_path); [| done].
  destruct (render_png _ _ _ _ _ _); [| done].
  apply lookup_insert_ne. intros <-. apply Hk.
  destruct (output_path_in_root platform size_label Hsizes) as (p & Hroot & Hp).
  eapply zone_platform; [done | done |]. by apply prefix_app_r.
Qed.

Lemma generate_platform_writes (config : PipelineConfig)
    (regenerate_files : list str) (entry : str * PlatformConfig) :
  entry ∈ platforms config →
  writes_in (zone base_dir config)
    (λ dk, generate_platform base_dir regenerate_files dk entry).
Proof.
  destruct entry as [platform pc]. intros Hin. unfold generate_platform.
  apply writes_in_foldl. intros screenshot _. unfold generate_screenshot.
  case_bool_decide; [apply writes_in_id |].
  destruct (dict_get platform SIZES) as [sizes|] eqn:Esizes;
    [| apply writes_in_id].
  cbn [default]. apply writes_in_foldl. intros category _.
  apply writes_in_foldl. intros size _.
  eapply generate_size_writes; [done |]. by rewrite Esizes.
Qed.

Lemma generate_results_writes (config : PipelineConfig) :
  writes_in (zone base_dir config) (generate_results_markdown base_dir config).
Proof.
  unfold generate_results_markdown. apply writes_in_foldl.
  intros [platform pc] Hin. unfold write_results.
  destruct (platform_root base_dir platform) as [dir|] eqn:Eroot;
    [| apply writes_in_id].
  apply writes_in_insert. eapply zone_platform; [done | done |].
  by apply prefix_app_r.
Qed.

(** Cleaning empties the zone and nothing else. *)
Lemma lookup_clean (config : PipelineConfig) (dk : gmap path bytes) (k : path) :
  clean base_dir config dk !! k
    = if decide (zone base_dir config k) then None else dk !! k.
Proof.
  unfold clean, zone. revert dk.
  induction (platforms_to_clean base_dir config) as [|p ps IH]; intros dk;
    cbn [foldl].
  - rewrite decide_False; [done |]. by intros ?%Exists_nil.
  - rewrite IH. unfold rmtree.
    destruct (decide (Exists (λ p, p `prefix_of` k) ps)) as [Hps|Hps].
    + rewrite decide_True; [done | by right].
    + destruct (decide (p `prefix_of` k)) as [Hp|Hp].
      * rewrite decide_True by by left.
        apply map_lookup_filter_None_2. right. by intros data _ Hn.
      * rewrite decide_False by by intros [?|?]%Exists_cons.
        destruct (dk !! k) as [data|] eqn:E.
        -- by apply map_lookup_filter_Some_2.
        -- apply map_lookup_filter_None_2. by left.
Qed.

Lemma clean_after_writes (config : PipelineConfig)
    (f : gmap path bytes → gmap path bytes) (dk : gmap path bytes) :
  writes_in (zone base_dir config) f →
  clean base_dir config (f (clean base_dir config dk))
    = clean base_dir config dk.
Proof.
  intros Hf. apply map_eq. intros k. rewrite !lookup_clean.
  case_decide as Hk; [done |]. rewrite Hf by done. rewrite lookup_clean.
  by rewrite decide_False.
Qed.

Lemma generation_writes (config : PipelineConfig)
    (regenerate_files : list str) :
  writes_in (zone base_dir config) (generation base_dir config regenerate_files).
Proof.
  intros dk k Hk. unfold generation.
  rewrite generate_results_writes by done.
  apply (writes_in_foldl (zone base_dir config)); [| done].
  intros entry Hin. by apply generate_platform_writes.
Qed.

Lemma generate_outside (regenerate_files : list str) (dk : gmap path bytes)
    (k : path) :
  ¬ output_dir base_dir `prefix_of` k →
  (generate base_dir regenerate_files dk).2 !! k = dk !! k.
Proof.
  intros Hk. unfold generate.
  destruct (dk !! config_file base_dir) as [document|]; [| done].
  destruct (json_load document) as [config|]; [| done]. cbn [snd].
  assert (¬ zone base_dir config k) as Hz by (intros ?%zone_output; done).
  change (generate_results_markdown base_dir config (foldl _ ?x _))
    with (generation base_dir config regenerate_files x).
  rewrite generation_writes by done.
  destruct regenerate_files; [| done].
  rewrite lookup_clean. by rewrite decide_False.
Qed.

End generate_facts.

(** C7.  [generate] never changes the config file: however the call
    ends, and whatever files it is asked to regenerate, the disk it
    leaves holds under [screenshot_config.json] what was there before.
    Everything it writes or removes lies under [Output/]. *)
Theorem C7_generate_keeps_config `{Host} (base_dir : path)
    (regenerate_files : list str) (dk : gmap path bytes) :
  (generate base_dir regenerate_files dk).2 !! config_file base_dir
    = dk !! config_file base_dir
  ∧ ∀ k, ¬ output_dir base_dir `prefix_of` k →
         (generate base_dir regenerate_files dk).2 !! k = dk !! k.
Proof.
  split; [| intros k; apply generate_outside].
  apply generate_outside, config_file_outside.
Qed.

(** C6.  [generate()] twice in succession gives what [generate()] once
    gives: the second call ends as the first did and leaves the disk,
    with every output image and every [RESULTS.md], exactly as the first
    call left it. *)
Theorem C6_generate_idempotent `{Host} (base_dir : path)
    (dk : gmap path bytes) :
  generate base_dir [] (generate base_dir [] dk).2 = generate base_dir [] dk.
Proof.
  pose proof (generate_outside base_dir [] dk (config_file base_dir)
                (config_file_outside base_dir)) as Hconfig.
  unfold generate in *.
  destruct (dk !! config_file base_dir) as [document|] eqn:Edoc;
    cbn [snd] in *; [| by rewrite Edoc].
  destruct (json_load document) as [config|] eqn:Econfig;
    cbn [snd] in *; [| by rewrite Edoc, Econfig].
  rewrite Hconfig, Econfig. f_equal.
  pose proof (clean_after_writes base_dir config
                (generation base_dir config []) dk
                (generation_writes base_dir config [])) as Hclean.
  unfold generation in Hclean. by rewrite Hclean.
Qed.

(** * Rounding *)













(** * The compositor *)

Section compositor_facts.
Context `{Pil}.


End compositor_facts.


